(** * merge_tsv: merging TSV tables on [SampleID]

    A shallow embedding of [bin/merge_tsv.py].  The script reads every
    input file with [polars.read_csv], checks that each table has a
    column named [SampleID], folds the tables left to right with
    [DataFrame.join(on="SampleID", how=join_type)], drops a column named
    [SampleID_right] after each step and writes the result.

    The file has two parts.  [Module Polars] models the three library
    operations the script calls on a data frame ([columns], [drop],
    [join]), following the behaviour the Polars documentation gives for
    them; [Module MergeTsv] is the script itself, written over an
    explicit trace of the reads, prints and writes it performs. *)

From Stdlib Require Import List String Ascii Bool Arith Lia.
Import ListNotations.
Open Scope string_scope.
Open Scope list_scope.

(** ** The data frame operations used by the script *)

Module Polars.

(** A cell holds a value or is null.  Values are kept as text; two cells
    are joined when both hold a value and the values are equal.  The
    model leaves the column dtypes out: it describes joins whose key
    columns were read with one dtype, which is the case the script's
    joins complete in. *)
Definition cell := option string.

Record Series := mkSeries { name : string; values : list cell }.

(** A frame is its columns, in order. *)
Definition DataFrame := list Series.

Definition columns (df : DataFrame) : list string := map name df.

(** Python's [n in names] on a list of strings. *)
Definition contains (n : string) (names : list string) : bool :=
  existsb (String.eqb n) names.

Definition get_column (df : DataFrame) (n : string) : option Series :=
  find (fun s => String.eqb (name s) n) df.

Definition drop (df : DataFrame) (n : string) : DataFrame :=
  filter (fun s => negb (String.eqb (name s) n)) df.

Inductive JoinType := Inner | Full | Left | Right.

Inductive PolarsError :=
| DuplicateError (column : string)
| ColumnNotFoundError (column : string).

(** The suffix a join appends to a right-hand column whose name is
    already taken on the left ([suffix="_right"] by default). *)
Definition suffix : string := "_right".

(** Null keys never match ([nulls_equal=False] by default). *)
Definition keys_match (a b : cell) : bool :=
  match a, b with
  | Some x, Some y => String.eqb x y
  | _, _ => false
  end.

(** Positions [j + i] of the keys of [ks] that match [k]. *)
Fixpoint matches_from (j : nat) (k : cell) (ks : list cell) : list nat :=
  match ks with
  | [] => []
  | r :: rs =>
      if keys_match k r then j :: matches_from (S j) k rs
      else matches_from (S j) k rs
  end.

Definition matches (k : cell) (ks : list cell) : list nat :=
  matches_from 0 k ks.

(** A join is computed as a list of row-index pairs; [None] stands for
    the all-null row of the side that has no match. *)
Definition row_pair := (option nat * option nat)%type.

Fixpoint inner_idx (i : nat) (lkeys rkeys : list cell) : list row_pair :=
  match lkeys with
  | [] => []
  | k :: ks =>
      map (fun j => (Some i, Some j)) (matches k rkeys)
        ++ inner_idx (S i) ks rkeys
  end.

Fixpoint left_idx (i : nat) (lkeys rkeys : list cell) : list row_pair :=
  match lkeys with
  | [] => []
  | k :: ks =>
      match matches k rkeys with
      | [] => [(Some i, None)]
      | js => map (fun j => (Some i, Some j)) js
      end ++ left_idx (S i) ks rkeys
  end.

(** Rows of the right side that no left row matches. *)
Fixpoint unmatched_idx (j : nat) (lkeys rkeys : list cell) : list row_pair :=
  match rkeys with
  | [] => []
  | k :: ks =>
      match matches k lkeys with
      | [] => (None, Some j) :: unmatched_idx (S j) lkeys ks
      | _ => unmatched_idx (S j) lkeys ks
      end
  end.

Definition swap (p : row_pair) : row_pair := (snd p, fst p).

(** [left] keeps the order of the left rows and [right] that of the right
    rows; [full] lists the left rows first and the unmatched right rows
    after them (Polars leaves the row order of a full join open; nothing
    below depends on it except the printed frames). *)
Definition join_idx (how : JoinType) (lkeys rkeys : list cell) : list row_pair :=
  match how with
  | Inner => inner_idx 0 lkeys rkeys
  | Left => left_idx 0 lkeys rkeys
  | Right => map swap (left_idx 0 rkeys lkeys)
  | Full => left_idx 0 lkeys rkeys ++ unmatched_idx 0 lkeys rkeys
  end.

(** Gathering a column at row indices; a missing index gives null. *)
Definition gather (vals : list cell) (ix : list (option nat)) : list cell :=
  map (fun o => match o with
                | Some i => nth i vals None
                | None => None
                end) ix.

(** Appending columns to a frame fails on a name that is already there. *)
Fixpoint hstack (df : DataFrame) (cols : list Series) : PolarsError + DataFrame :=
  match cols with
  | [] => inr df
  | s :: rest =>
      if contains (name s) (columns df) then inl (DuplicateError (name s))
      else hstack (df ++ [s]) rest
  end.

(** The name a right-hand column gets in the result. *)
Definition right_name (left_names : list string) (n : string) : string :=
  if contains n left_names then String.append n suffix else n.

(** [left.join(right, on=on, how=how)] with the default [coalesce=None]:
    [inner], [left] and [right] joins coalesce the key columns, a [full]
    join does not and returns the right key as a column of its own,
    renamed by the suffix.
    - [inner], [left]: the left columns, then the right columns without
      the key;
    - [full]: the left columns, then all right columns; in a row that
      only the right table has, the left key is null and the key value
      is in the renamed right key column (the library's own example:
      joining on [ham] gives the columns [foo, bar, ham, apple,
      ham_right], with [ham] null and [ham_right = d] in the row of the
      unmatched right key [d]);
    - [right]: the left columns without the key, then all right columns,
      the right key keeping its name.
    A right-hand column whose name is taken on the left gets the suffix;
    when the resulting name is taken too the join raises
    [DuplicateError] ("column with name 'X_right' already exists"). *)
Definition join (left right : DataFrame) (on : string) (how : JoinType)
  : PolarsError + DataFrame :=
  match get_column left on, get_column right on with
  | Some lk, Some rk =>
      let ix := join_idx how (values lk) (values rk) in
      let take_left s := mkSeries (name s) (gather (values s) (map fst ix)) in
      let take_right names s :=
        mkSeries (right_name names (name s)) (gather (values s) (map snd ix)) in
      match how with
      | Inner | Left =>
          hstack (map take_left left)
                 (map (take_right (columns left)) (drop right on))
      | Full =>
          hstack (map take_left left)
                 (map (take_right (columns left)) right)
      | Right =>
          hstack (map take_left (drop left on))
                 (map (take_right (columns (drop left on))) right)
      end
  | _, _ => inl (ColumnNotFoundError on)
  end.

End Polars.

(** ** The script *)

Module MergeTsv.
Import Polars.

Inductive exn :=
| ValueError (msg : string)
| TypeError (msg : string)
| ReadError (detail : string)
| JoinError (e : PolarsError).

Inductive event :=
| EvPrint (msg : string)
| EvRead (path : string)
| EvWrite (path : string) (df : DataFrame).

(** How a run stops early: [sys.exit(code)] or an uncaught exception. *)
Inductive stop :=
| SysExit (code : nat)
| Raised (e : exn).

(** A computation yields the events it performed, in order, and either
    the reason it stopped or its value. *)
Definition io (A : Type) : Type := (list event * (stop + A))%type.

Definition ret {A} (a : A) : io A := ([], inr a).

Definition bind {A B} (m : io A) (k : A -> io B) : io B :=
  match m with
  | (evs, inl s) => (evs, inl s)
  | (evs, inr a) => let '(evs', r) := k a in (evs ++ evs', r)
  end.

Notation "x <- m ;; k" := (bind m (fun x => k))
  (at level 61, m at next level, right associativity).
Notation "m ;;; k" := (bind m (fun _ => k))
  (at level 61, right associativity).

Definition emit (e : event) : io unit := ([e], inr tt).
Definition raise {A} (e : exn) : io A := ([], inl (Raised e)).
Definition sys_exit {A} (code : nat) : io A := ([], inl (SysExit code)).

Definition lift {A} (r : PolarsError + A) : io A :=
  match r with
  | inl e => raise (JoinError e)
  | inr a => ret a
  end.

(** What [pl.read_csv(path, separator="\t")] gives for each path: the
    parsed table or the error the reader raises. *)
Definition filesystem := string -> string + DataFrame.

Definition read_csv (fs : filesystem) (f : string) : io DataFrame :=
  emit (EvRead f) ;;;
  match fs f with
  | inl detail => raise (ReadError detail)
  | inr df => ret df
  end.

Definition write_csv (df : DataFrame) (output : string) : io unit :=
  emit (EvWrite output df).

(** [[pl.read_csv(f, separator="\t") for f in files]] *)
Fixpoint read_all (fs : filesystem) (files : list string) : io (list DataFrame) :=
  match files with
  | [] => ret []
  | f :: rest =>
      df <- read_csv fs f ;;
      dfs <- read_all fs rest ;;
      ret (df :: dfs)
  end.

(** The loop [for i, df in enumerate(dfs)], entered at index [i]. *)
Fixpoint check_columns (files : list string) (i : nat) (dfs : list DataFrame)
  : io unit :=
  match dfs with
  | [] => ret tt
  | df :: rest =>
      if negb (contains "SampleID" (columns df)) then
        raise (ValueError
                 (String.append "'SampleID' column missing in file: "
                                (nth i files "")))
      else check_columns files (S i) rest
  end.

Definition safe_join (join_type : JoinType) (left right : DataFrame)
  : PolarsError + DataFrame :=
  match join left right "SampleID" join_type with
  | inl e => inl e
  | inr joined =>
      if contains "SampleID_right" (columns joined)
      then inr (drop joined "SampleID_right")
      else inr joined
  end.

(** [functools.reduce(f, xs)] from an accumulator on. *)
Fixpoint reduce_from {A E} (f : A -> A -> E + A) (acc : A) (xs : list A) : E + A :=
  match xs with
  | [] => inr acc
  | x :: rest =>
      match f acc x with
      | inl e => inl e
      | inr acc' => reduce_from f acc' rest
      end
  end.

Definition reduce (f : DataFrame -> DataFrame -> PolarsError + DataFrame)
  (xs : list DataFrame) : io DataFrame :=
  match xs with
  | [] => raise (TypeError "reduce() of empty iterable with no initial value")
  | x :: rest => lift (reduce_from f x rest)
  end.

Definition merge_tsv (fs : filesystem) (files : list string) (output : string)
  (join_type : JoinType) : io unit :=
  match files with
  | [] =>
      emit (EvPrint "Error: No input files provided.") ;;;
      sys_exit 1
  | _ =>
      dfs <- read_all fs files ;;
      check_columns files 0 dfs ;;;
      merged_df <- reduce (safe_join join_type) dfs ;;
      write_csv merged_df output
  end.

End MergeTsv.

Import Polars MergeTsv.

(** ** Example tables *)

Module Examples.

Definition col (n : string) (vs : list string) : Series :=
  mkSeries n (map Some vs).

(** The two tables of the end-to-end example. *)
Definition A : DataFrame :=
  [ col "SampleID" ["1"; "2"]; col "X" ["10"; "20"] ].

Definition B : DataFrame :=
  [ col "SampleID" ["2"; "3"]; col "Y" ["200"; "300"] ].

Definition disk (tables : list (string * DataFrame)) : filesystem :=
  fun path =>
    match find (fun p => String.eqb (fst p) path) tables with
    | Some p => inr (snd p)
    | None => inl "No such file or directory"
    end.

(** A table whose key column is spelt in lower case. *)
Definition NoId : DataFrame :=
  [ col "sampleid" ["1"; "2"]; col "Z" ["7"; "8"] ].

(** A table with a data column that is itself named [SampleID_right]. *)
Definition G : DataFrame :=
  [ col "SampleID" ["1"; "2"]; col "SampleID_right" ["p"; "q"];
    col "W" ["5"; "6"] ].

(** A second table with a column [X]. *)
Definition A2 : DataFrame :=
  [ col "SampleID" ["1"; "2"]; col "X" ["11"; "21"] ].

(** A third one, its rows in another order and one key repeated. *)
Definition A3 : DataFrame :=
  [ col "SampleID" ["2"; "2"; "1"]; col "X" ["12"; "22"; "32"] ].

(** A table sharing only the key [2] with [A], listed twice. *)
Definition D : DataFrame :=
  [ col "SampleID" ["2"; "4"; "2"]; col "V" ["a"; "b"; "c"] ].

(** What the script writes for [[A; B]] under [full]. *)
Definition AB_full : DataFrame :=
  [ mkSeries "SampleID" [Some "1"; Some "2"; None];
    mkSeries "X" [Some "10"; Some "20"; None];
    mkSeries "Y" [None; Some "200"; Some "300"] ].

Definition AB : filesystem :=
  disk [("A.tsv", A); ("B.tsv", B); ("noid.tsv", NoId); ("G.tsv", G);
        ("A2.tsv", A2); ("A3.tsv", A3); ("D.tsv", D)].

End Examples.

(** ** Vocabulary of the statements *)

(** The table has a column literally named [SampleID]. *)
Definition has_SampleID (df : DataFrame) : Prop := In "SampleID" (columns df).

(** Column names are unique within a table, as they are in every frame
    the reader returns. *)
Definition unique_columns (df : DataFrame) : Prop := NoDup (columns df).

(** The cells of the [SampleID] column, in row order. *)
Definition sample_ids (df : DataFrame) : list cell :=
  match get_column df "SampleID" with
  | Some s => values s
  | None => []
  end.

(** Every file of the list is read as the table at the same position. *)
Definition reads (fs : filesystem) (files : list string) (dfs : list DataFrame)
  : Prop :=
  Forall2 (fun f df => fs f = inr df) files dfs.

(** The frames handed to [write_csv] during a run. *)
Fixpoint written (evs : list event) : list DataFrame :=
  match evs with
  | [] => []
  | EvWrite _ df :: rest => df :: written rest
  | _ :: rest => written rest
  end.

(** [stutter l l'] : [l'] is [l] with every element repeated one or more
    times in place; the elements and their order are those of [l]. *)
Inductive stutter {A : Type} : list A -> list A -> Prop :=
| stutter_nil : stutter [] []
| stutter_cons x n l l' :
    stutter l l' -> stutter (x :: l) (repeat x (S n) ++ l').

(** Every column of the tables [dfs], other than the key and a column
    named [SampleID_right], is among [cols] under its own name or with
    the join suffix appended. *)
Definition covers (dfs : list DataFrame) (cols : list string) : Prop :=
  forall df c,
    In df dfs -> In c (columns df) ->
    c <> "SampleID" -> c <> "SampleID_right" ->
    In c cols \/ In (String.append c suffix) cols.

(** Every name of [cols] other than the key is the name of a column of
    one of the tables [dfs], possibly with the join suffix appended. *)
Definition derived (dfs : list DataFrame) (cols : list string) : Prop :=
  forall n,
    In n cols -> n <> "SampleID" ->
    exists df c,
      In df dfs /\ In c (columns df) /\ c <> "SampleID" /\
      (n = c \/ n = String.append c suffix).

(** The number of rows of a frame ([df.height]). *)
Definition height (df : DataFrame) : nat :=
  match df with
  | [] => 0
  | s :: _ => List.length (values s)
  end.

(** Every column has as many cells as the frame has rows. *)
Definition rectangular (df : DataFrame) : Prop :=
  forall s, In s df -> List.length (values s) = height df.

(** The values of a list of cells, nulls left out. *)
Definition key_values (ks : list cell) : list string :=
  flat_map (fun c => match c with Some v => [v] | None => [] end) ks.

(** No value occurs twice in the table's [SampleID] column. *)
Definition distinct_keys (df : DataFrame) : Prop :=
  NoDup (key_values (sample_ids df)).


(** The table has no column named [SampleID_right]. *)
Definition no_SampleID_right (df : DataFrame) : Prop :=
  ~ In "SampleID_right" (columns df).

(** The left names a join on [SampleID] keeps and renames against. *)
Definition kept_names (how : JoinType) (left : DataFrame) : list string :=
  match how with
  | Right => columns (drop left "SampleID")
  | _ => columns left
  end.

(** The table has a column named [c]. *)
Definition has_column (c : string) (df : DataFrame) : bool :=
  contains c (columns df).

(** The error message of the validation loop. *)
Definition missing_message (path : string) : string :=
  String.append "'SampleID' column missing in file: " path.

(** ** Basic facts about the frame operations *)

(** Side conditions on concrete tables: the files are read as the listed
    tables, the tables have (or lack) the key column. *)
Ltac concrete_tables :=
  repeat constructor; unfold has_SampleID; simpl;
  solve [auto | intuition discriminate].

Lemma contains_In n names : contains n names = true <-> In n names.
Proof.
  unfold contains. rewrite existsb_exists. split.
  - intros (x & Hx & E). apply String.eqb_eq in E. now subst.
  - intros H. exists n. split; [assumption | apply String.eqb_refl].
Qed.

Lemma contains_not_In n names : contains n names = false <-> ~ In n names.
Proof.
  rewrite <- contains_In. destruct (contains n names); split; congruence.
Qed.

Lemma columns_app (d1 d2 : DataFrame) :
  columns (d1 ++ d2) = columns d1 ++ columns d2.
Proof. apply map_app. Qed.

Lemma columns_drop df n :
  columns (drop df n) = filter (fun c => negb (String.eqb c n)) (columns df).
Proof.
  induction df as [|s df IH]; simpl; [reflexivity|].
  destruct (String.eqb (name s) n); simpl; now rewrite IH.
Qed.

Lemma In_columns_drop df n c :
  In c (columns (drop df n)) <-> In c (columns df) /\ c <> n.
Proof.
  rewrite columns_drop, filter_In, negb_true_iff, String.eqb_neq. tauto.
Qed.


Lemma get_column_In df n s :
  get_column df n = Some s -> In n (columns df).
Proof.
  unfold get_column. intros H. apply find_some in H as [Hin E].
  apply String.eqb_eq in E. subst n. now apply in_map.
Qed.

(** ** The run of [merge_tsv] on readable files *)

Lemma read_all_ok fs files dfs :
  reads fs files dfs -> read_all fs files = (map EvRead files, inr dfs).
Proof.
  induction 1 as [|f df files dfs Hf _ IH]; [reflexivity|].
  simpl. unfold read_csv, emit, bind, ret in *. rewrite Hf, IH.
  simpl. now rewrite app_nil_r.
Qed.

Lemma read_all_error fs pre f post dfs detail :
  reads fs pre dfs -> fs f = inl detail ->
  read_all fs (pre ++ f :: post)
  = (map EvRead (pre ++ [f]), inl (Raised (ReadError detail))).
Proof.
  intros Hpre Hf.
  induction Hpre as [|g df pre dfs Hg _ IH]; simpl.
  - unfold read_csv, emit, bind, raise. now rewrite Hf.
  - unfold read_csv, emit, bind, ret in *. rewrite Hg, IH. reflexivity.
Qed.

Lemma check_columns_ok files i dfs :
  Forall has_SampleID dfs -> check_columns files i dfs = ret tt.
Proof.
  intros H. revert i. induction H as [|df dfs Hdf _ IH]; intros i; simpl.
  - reflexivity.
  - apply contains_In in Hdf. rewrite Hdf. simpl. apply IH.
Qed.

(** The loop stops at the first table without the column and names the
    file at that index. *)
Lemma check_columns_missing files i good df rest :
  Forall has_SampleID good -> ~ has_SampleID df ->
  check_columns files i (good ++ df :: rest)
  = raise (ValueError (missing_message (nth (i + List.length good) files ""))).
Proof.
  intros Hgood Hdf. revert i.
  induction Hgood as [|g good Hg _ IH]; intros i; simpl.
  - apply contains_not_In in Hdf. rewrite Hdf. simpl.
    now rewrite Nat.add_0_r.
  - apply contains_In in Hg. rewrite Hg. simpl.
    rewrite IH. now rewrite Nat.add_succ_r.
Qed.

Lemma split_first_missing dfs :
  Exists (fun df => ~ has_SampleID df) dfs ->
  exists good df rest,
    dfs = good ++ df :: rest /\ Forall has_SampleID good /\ ~ has_SampleID df.
Proof.
  induction 1 as [df dfs H | d dfs _ (good & df & rest & E & Hg & Hd)].
  - exists [], df, dfs. repeat split; auto.
  - destruct (contains "SampleID" (columns d)) eqn:Ed.
    + exists (d :: good), df, rest. subst dfs. repeat split; auto.
      constructor; [now apply contains_In | assumption].
    + exists [], d, dfs. repeat split; auto. now apply contains_not_In.
Qed.

Lemma merge_tsv_nonempty fs files output join_type :
  files <> [] ->
  merge_tsv fs files output join_type
  = (dfs <- read_all fs files ;;
     check_columns files 0 dfs ;;;
     merged_df <- reduce (safe_join join_type) dfs ;;
     write_csv merged_df output).
Proof. destruct files; [congruence | reflexivity]. Qed.

Lemma app_cons_not_nil {A} (l : list A) x l' : l ++ x :: l' <> [].
Proof. now destruct l. Qed.

(** Once every file is read and every table has its key column, the run
    is the fold of [safe_join] followed by a single write, or the error
    of the first join that fails. *)
Lemma merge_tsv_run fs files output join_type first rest :
  reads fs files (first :: rest) ->
  Forall has_SampleID (first :: rest) ->
  merge_tsv fs files output join_type
  = match reduce_from (safe_join join_type) first rest with
    | inl e => (map EvRead files, inl (Raised (JoinError e)))
    | inr merged_df => (map EvRead files ++ [EvWrite output merged_df], inr tt)
    end.
Proof.
  intros Hr Hv.
  rewrite merge_tsv_nonempty by (intros ->; inversion Hr).
  rewrite (read_all_ok _ _ _ Hr). unfold bind at 1.
  rewrite (check_columns_ok _ _ _ Hv). unfold ret, bind at 1.
  unfold reduce, lift.
  destruct (reduce_from (safe_join join_type) first rest); simpl;
    now rewrite ?app_nil_r.
Qed.

Lemma written_reads files : written (map EvRead files) = [].
Proof. induction files; simpl; auto. Qed.

Lemma written_app evs evs' : written (evs ++ evs') = written evs ++ written evs'.
Proof.
  induction evs as [|[m | f | f df] evs IH]; simpl; auto. now rewrite IH.
Qed.

(** When the first table without the key column is at the position of
    file [f], the run reads every file and raises the error naming [f]. *)
Lemma merge_tsv_validation_run fs fgood f frest output join_type good df rest :
  reads fs (fgood ++ f :: frest) (good ++ df :: rest) ->
  List.length fgood = List.length good ->
  Forall has_SampleID good -> ~ has_SampleID df ->
  merge_tsv fs (fgood ++ f :: frest) output join_type
  = (map EvRead (fgood ++ f :: frest),
     inl (Raised (ValueError (missing_message f)))).
Proof.
  intros Hr Hlen Hgood Hdf.
  rewrite merge_tsv_nonempty by apply app_cons_not_nil.
  rewrite (read_all_ok _ _ _ Hr). unfold bind at 1.
  rewrite (check_columns_missing _ _ _ _ _ Hgood Hdf). simpl plus.
  rewrite <- Hlen, app_nth2, Nat.sub_diag by lia. simpl nth.
  unfold raise, bind. now rewrite app_nil_r.
Qed.

Lemma merge_tsv_read_error fs pre f post output join_type dfs detail :
  reads fs pre dfs -> fs f = inl detail ->
  merge_tsv fs (pre ++ f :: post) output join_type
  = (map EvRead (pre ++ [f]), inl (Raised (ReadError detail))).
Proof.
  intros Hr Hf.
  rewrite merge_tsv_nonempty by apply app_cons_not_nil.
  now rewrite (read_all_error _ _ _ post _ _ Hr Hf).
Qed.

(** ** Failures before any join *)

(** C5. Called with an empty list of files, [merge_tsv] prints the usage
    error and exits with status 1; the print is the only thing it does,
    so no file is read and none is written. *)
Theorem merge_tsv_empty_files fs output join_type :
  merge_tsv fs [] output join_type
  = ([EvPrint "Error: No input files provided."], inl (SysExit 1)).
Proof. reflexivity. Qed.

(** C2. When every file is read and some table has no column named
    exactly [SampleID], the run raises the [ValueError] whose message
    ends with the path of the first such file, after the reads and with
    nothing handed to [write_csv]. *)
Theorem merge_tsv_missing_SampleID fs files output join_type dfs :
  reads fs files dfs ->
  Exists (fun df => ~ has_SampleID df) dfs ->
  exists i f df,
    nth_error files i = Some f /\ nth_error dfs i = Some df /\
    ~ has_SampleID df /\
    merge_tsv fs files output join_type
    = (map EvRead files, inl (Raised (ValueError (missing_message f)))) /\
    written (fst (merge_tsv fs files output join_type)) = [].
Proof.
  intros Hr Hex.
  destruct (split_first_missing _ Hex) as (good & df & rest & -> & Hgood & Hdf).
  destruct (Forall2_app_inv_r _ _ Hr) as (fgood & ftail & Hg & Ht & ->).
  inversion Ht as [|f df' frest rest' Hf Hrest]; subst.
  pose proof (Forall2_length Hg) as Hlen.
  exists (List.length good), f, df.
  assert (Hrun := merge_tsv_validation_run fs fgood f frest output join_type
                    good df rest Hr Hlen Hgood Hdf).
  repeat split; auto.
  - rewrite <- Hlen, nth_error_app2, Nat.sub_diag by lia. reflexivity.
  - rewrite nth_error_app2, Nat.sub_diag by lia. reflexivity.
  - rewrite Hrun. apply written_reads.
Qed.

Lemma merge_tsv_missing_SampleID_witness :
  exists i f df,
    nth_error ["A.tsv"; "noid.tsv"; "B.tsv"] i = Some f /\
    nth_error [Examples.A; Examples.NoId; Examples.B] i = Some df /\
    ~ has_SampleID df /\
    merge_tsv Examples.AB ["A.tsv"; "noid.tsv"; "B.tsv"] "out.tsv" Full
    = (map EvRead ["A.tsv"; "noid.tsv"; "B.tsv"],
       inl (Raised (ValueError (missing_message f)))) /\
    written (fst (merge_tsv Examples.AB ["A.tsv"; "noid.tsv"; "B.tsv"]
                    "out.tsv" Full)) = [].
Proof.
  apply (merge_tsv_missing_SampleID Examples.AB
           ["A.tsv"; "noid.tsv"; "B.tsv"] "out.tsv" Full
           [Examples.A; Examples.NoId; Examples.B]).
  - repeat constructor.
  - right. left. unfold has_SampleID. simpl. intuition discriminate.
Defined.

(** C10. The reads come before the validation: when a table lacks
    [SampleID] and a file after it in the list cannot be read, the run
    stops at that file with the reader's error; no [ValueError] about the
    missing column is raised. *)
Theorem read_error_precedes_validation fs pre f post output join_type dfs detail :
  reads fs pre dfs ->
  Exists (fun df => ~ has_SampleID df) dfs ->
  fs f = inl detail ->
  merge_tsv fs (pre ++ f :: post) output join_type
  = (map EvRead (pre ++ [f]), inl (Raised (ReadError detail))).
Proof.
  intros Hr _ Hf. now apply merge_tsv_read_error with (dfs := dfs).
Qed.

Lemma read_error_precedes_validation_witness :
  merge_tsv Examples.AB (["noid.tsv"; "A.tsv"] ++ "gone.tsv" :: ["B.tsv"])
    "out.tsv" Inner
  = (map EvRead (["noid.tsv"; "A.tsv"] ++ ["gone.tsv"]),
     inl (Raised (ReadError "No such file or directory"))).
Proof.
  apply (read_error_precedes_validation Examples.AB ["noid.tsv"; "A.tsv"]
           "gone.tsv" ["B.tsv"] "out.tsv" Inner [Examples.NoId; Examples.A]).
  - repeat constructor.
  - left. unfold has_SampleID. simpl. intuition discriminate.
  - reflexivity.
Defined.

(** ** A single file *)

(** C7. Merging the one-element list [[f]] performs no join: whatever
    the join mode, the table read from [f] is written unchanged. *)
Theorem merge_tsv_single_file fs f output join_type df :
  fs f = inr df -> has_SampleID df ->
  merge_tsv fs [f] output join_type = ([EvRead f; EvWrite output df], inr tt).
Proof.
  intros Hf Hv.
  rewrite (merge_tsv_run fs [f] output join_type df []).
  - reflexivity.
  - repeat constructor. exact Hf.
  - repeat constructor. exact Hv.
Qed.

Lemma merge_tsv_single_file_witness :
  merge_tsv Examples.AB ["A.tsv"] "out.tsv" Right
  = ([EvRead "A.tsv"; EvWrite "out.tsv" Examples.A], inr tt).
Proof.
  apply (merge_tsv_single_file Examples.AB "A.tsv" "out.tsv" Right Examples.A).
  - reflexivity.
  - unfold has_SampleID. simpl. auto.
Defined.

(** ** Shape of a join *)

Lemma hstack_inr cols : forall df out,
  hstack df cols = inr out -> out = df ++ cols.
Proof.
  induction cols as [|s cols IH]; simpl; intros df out H.
  - rewrite app_nil_r. congruence.
  - destruct (contains (name s) (columns df)); [discriminate|].
    apply IH in H. now rewrite <- app_assoc in H.
Qed.

Lemma hstack_NoDup cols : forall df out,
  hstack df cols = inr out -> NoDup (columns df) -> NoDup (columns out).
Proof.
  induction cols as [|s cols IH]; simpl; intros df out H Hnd.
  - congruence.
  - destruct (contains (name s) (columns df)) eqn:E; [discriminate|].
    apply (IH _ _ H). rewrite columns_app. simpl.
    apply NoDup_app; [assumption | repeat constructor; simpl; tauto |].
    intros c Hc [<- | []]. apply contains_not_In in E. contradiction.
Qed.

Lemma get_column_app_l d1 d2 n s :
  get_column d1 n = Some s -> get_column (d1 ++ d2) n = Some s.
Proof.
  unfold get_column. induction d1 as [|x d1 IH]; simpl; [discriminate|].
  destruct (String.eqb (name x) n); auto.
Qed.

Lemma get_column_app_r d1 d2 n :
  ~ In n (columns d1) -> get_column (d1 ++ d2) n = get_column d2 n.
Proof.
  unfold get_column. induction d1 as [|x d1 IH]; simpl; [reflexivity|].
  intros H. destruct (String.eqb (name x) n) eqn:E.
  - apply String.eqb_eq in E. tauto.
  - apply IH. tauto.
Qed.

Lemma get_column_map (f : Series -> Series) df n :
  (forall s, name (f s) = name s) ->
  get_column (map f df) n = option_map f (get_column df n).
Proof.
  intros Hf. unfold get_column. induction df as [|x df IH]; simpl; [reflexivity|].
  rewrite Hf. destruct (String.eqb (name x) n); auto.
Qed.

Lemma get_column_drop_other df n m :
  n <> m -> get_column (drop df m) n = get_column df n.
Proof.
  intros Hnm. unfold get_column, drop.
  induction df as [|x df IH]; simpl; [reflexivity|].
  destruct (String.eqb (name x) m) eqn:Em; simpl.
  - destruct (String.eqb (name x) n) eqn:En; [|assumption].
    apply String.eqb_eq in Em, En. congruence.
  - now rewrite IH.
Qed.

Lemma columns_map_same (f : Series -> Series) df :
  (forall s, name (f s) = name s) -> columns (map f df) = columns df.
Proof.
  intros Hf. unfold columns. rewrite map_map. apply map_ext. exact Hf.
Qed.

(** The frame a completed join returns, by join type. *)
Lemma join_inr left right on how joined :
  join left right on how = inr joined ->
  exists lk rk,
    get_column left on = Some lk /\ get_column right on = Some rk /\
    let ix := join_idx how (values lk) (values rk) in
    let take_left s := mkSeries (name s) (gather (values s) (map fst ix)) in
    let take_right names s :=
      mkSeries (right_name names (name s)) (gather (values s) (map snd ix)) in
    joined
    = match how with
      | Inner | Left =>
          map take_left left ++ map (take_right (columns left)) (drop right on)
      | Full => map take_left left ++ map (take_right (columns left)) right
      | Right =>
          map take_left (drop left on)
            ++ map (take_right (columns (drop left on))) right
      end.
Proof.
  unfold join. intros H.
  destruct (get_column left on) as [lk|]; [|discriminate].
  destruct (get_column right on) as [rk|]; [|discriminate].
  exists lk, rk. repeat split.
  destruct how; now apply hstack_inr in H.
Qed.

(** The step of the fold: the join, without its [SampleID_right] column. *)
Lemma safe_join_inr join_type left right out :
  safe_join join_type left right = inr out ->
  exists joined,
    join left right "SampleID" join_type = inr joined /\
    out = drop joined "SampleID_right".
Proof.
  unfold safe_join. intros H.
  destruct (join left right "SampleID" join_type) as [e|joined]; [discriminate|].
  exists joined. split; [reflexivity|].
  destruct (contains "SampleID_right" (columns joined)) eqn:E.
  - congruence.
  - injection H as <-. unfold drop. symmetry.
    apply forallb_filter_id. apply forallb_forall. intros s Hs.
    apply negb_true_iff, String.eqb_neq. intros En.
    apply contains_not_In in E. apply E. rewrite <- En. now apply in_map.
Qed.

Lemma sample_ids_drop df :
  sample_ids (drop df "SampleID_right") = sample_ids df.
Proof.
  unfold sample_ids. now rewrite get_column_drop_other by discriminate.
Qed.

(** For [inner], [left] and [full], the key column of the step's result
    is the left key column gathered at the left row indices. *)
Lemma safe_join_sample_ids join_type left right out :
  join_type <> Right ->
  has_SampleID left ->
  safe_join join_type left right = inr out ->
  has_SampleID out /\
  sample_ids out
  = gather (sample_ids left)
      (map fst (join_idx join_type (sample_ids left) (sample_ids right))).
Proof.
  intros Hjt Hl H.
  apply safe_join_inr in H as (joined & Hj & ->).
  apply join_inr in Hj as (lk & rk & Hlk & Hrk & Hj). cbv zeta in Hj.
  set (tl := fun s => mkSeries (name s)
          (gather (values s)
             (map fst (join_idx join_type (values lk) (values rk))))) in Hj.
  assert (Hg : get_column joined "SampleID" = Some (tl lk)).
  { assert (Hm : get_column (map tl left) "SampleID" = Some (tl lk))
      by (rewrite get_column_map, Hlk; reflexivity).
    destruct join_type; try congruence; subst joined;
      now apply get_column_app_l. }
  split.
  - unfold has_SampleID. apply In_columns_drop. split; [|discriminate].
    now apply get_column_In in Hg.
  - rewrite sample_ids_drop. unfold sample_ids. now rewrite Hg, Hlk, Hrk.
Qed.

(** ** Row indices of a join *)

Lemma keys_match_true a b :
  keys_match a b = true <-> exists v, a = Some v /\ b = Some v.
Proof.
  destruct a as [x|], b as [y|]; simpl; split;
    try discriminate; try (intros (v & E1 & E2); discriminate).
  - intros E. apply String.eqb_eq in E. subst. now exists y.
  - intros (v & E1 & E2). injection E1 as ->. injection E2 as ->.
    apply String.eqb_refl.
Qed.

Lemma matches_from_nil j k ks :
  matches_from j k ks = [] <-> forall r, In r ks -> keys_match k r = false.
Proof.
  revert j. induction ks as [|r ks IH]; intros j; simpl.
  - tauto.
  - destruct (keys_match k r) eqn:E.
    + split; [discriminate|]. intros H. specialize (H r (or_introl eq_refl)).
      congruence.
    + rewrite IH. split.
      * intros H x [<- | Hx]; auto.
      * intros H x Hx. auto.
Qed.

(** A key has a match exactly when it is a value that occurs among the
    other side's keys. *)
Lemma matches_nonempty k ks :
  matches k ks <> [] <-> exists v, k = Some v /\ In (Some v) ks.
Proof.
  unfold matches. split.
  - intros H. destruct (existsb (keys_match k) ks) eqn:E.
    + apply existsb_exists in E as (r & Hr & Em).
      apply keys_match_true in Em as (v & -> & ->). now exists v.
    + exfalso. apply H. apply matches_from_nil. intros r Hr.
      destruct (keys_match k r) eqn:Em; [|reflexivity].
      assert (existsb (keys_match k) ks = true)
        by (apply existsb_exists; eauto).
      congruence.
  - intros (v & -> & Hin) H.
    rewrite matches_from_nil in H. specialize (H _ Hin).
    simpl in H. now rewrite String.eqb_refl in H.
Qed.

Lemma gather_app vals ix ix' :
  gather vals (ix ++ ix') = gather vals ix ++ gather vals ix'.
Proof. apply map_app. Qed.

Lemma gather_left_block vals i (js : list nat) :
  gather vals (map fst (map (fun j => (Some i, Some j)) js))
  = repeat (nth i vals None) (List.length js).
Proof.
  induction js as [|j js IH]; simpl; [reflexivity|]. now rewrite <- IH.
Qed.

Lemma seen_snoc (pre : list cell) k ks :
  pre ++ k :: ks = (pre ++ [k]) ++ ks /\
  S (List.length pre) = List.length (pre ++ [k]).
Proof.
  split; [now rewrite <- app_assoc | rewrite length_app; simpl; lia].
Qed.

(** A left join lists the left keys in order, each once per match and
    once when it has none. *)
Lemma gather_left_idx rkeys ks : forall pre,
  stutter ks
    (gather (pre ++ ks) (map fst (left_idx (List.length pre) ks rkeys))).
Proof.
  induction ks as [|k ks IH]; intros pre; simpl.
  - constructor.
  - rewrite map_app, gather_app.
    destruct (seen_snoc pre k ks) as [E1 E2]. rewrite E2.
    rewrite E1 at 2. specialize (IH (pre ++ [k])).
    destruct (matches k rkeys) as [|j js].
    + simpl. rewrite nth_middle. apply (stutter_cons k 0). exact IH.
    + change ((Some (List.length pre), Some j)
              :: map (fun j0 : nat => (Some (List.length pre), Some j0)) js)
        with (map (fun j0 : nat => (Some (List.length pre), Some j0)) (j :: js)).
      rewrite gather_left_block, nth_middle. simpl List.length.
      apply stutter_cons. exact IH.
Qed.

(** An inner join lists each left key once per match. *)
Lemma gather_inner_idx rkeys c ks : forall pre,
  In c (gather (pre ++ ks) (map fst (inner_idx (List.length pre) ks rkeys)))
  <-> In c ks /\ matches c rkeys <> [].
Proof.
  induction ks as [|k ks IH]; intros pre; simpl.
  - tauto.
  - rewrite map_app, gather_app, in_app_iff.
    destruct (seen_snoc pre k ks) as [E1 E2]. rewrite E2.
    rewrite E1 at 2. rewrite (IH (pre ++ [k])).
    rewrite gather_left_block, nth_middle. split.
    + intros [H | [H1 H2]]; [|tauto].
      apply repeat_spec in H as Hc. subst c. split; [now left|].
      intros E. rewrite E in H. exact H.
    + intros [[<- | H1] H2]; [left | tauto].
      destruct (matches k rkeys); [congruence | now left].
Qed.

(** ** Facts about [stutter] *)

Lemma stutter_In {A} (l l' : list A) :
  stutter l l' -> forall x, In x l' <-> In x l.
Proof.
  induction 1 as [|y n l l' _ IH]; intros x; [tauto|].
  simpl. rewrite in_app_iff, IH. split.
  - intros [E | [H | H]]; auto. apply repeat_spec in H. auto.
  - intros [E | H]; auto.
Qed.

Lemma stutter_repeat_inv {A} (x : A) k : forall l c,
  stutter (repeat x k ++ l) c ->
  exists m c', c = repeat x m ++ c' /\ (k = 0 -> m = 0) /\ (0 < k -> 0 < m)
               /\ stutter l c'.
Proof.
  induction k as [|k IH]; intros l c H.
  - exists 0, c. simpl. repeat split; [lia | exact H].
  - simpl in H. inversion H as [|y n l0 c0 H0]; subst.
    apply IH in H0 as (m & c' & -> & _ & _ & Hs).
    exists (S n + m), c'. repeat split; try lia; try exact Hs.
    rewrite repeat_app. simpl. now rewrite <- app_assoc.
Qed.

Lemma stutter_trans {A} (a b : list A) :
  stutter a b -> forall c, stutter b c -> stutter a c.
Proof.
  induction 1 as [|x n l l' _ IH]; intros c Hc; [exact Hc|].
  apply stutter_repeat_inv in Hc as (m & c' & -> & _ & Hm & Hs).
  destruct m as [|m]; [lia|]. constructor. now apply IH.
Qed.

Lemma stutter_refl {A} (l : list A) : stutter l l.
Proof.
  induction l as [|x l IH]; [constructor|]. apply (stutter_cons x 0). exact IH.
Qed.

(** ** The key column through the fold *)

(** One step of [reduce_from] in a hypothesis: name the new accumulator
    and what [safe_join_sample_ids] says about it. *)
Ltac key_step acc' Hacc' Hids :=
  let Hstep := fresh "Hstep" in
  match goal with
  | H : context [safe_join ?jt ?acc ?t] |- _ =>
      destruct (safe_join jt acc t) as [? | acc'] eqn:Hstep; [discriminate|];
      apply safe_join_sample_ids in Hstep as [Hacc' Hids];
      [|discriminate|assumption]
  end.

Lemma reduce_left_keys rest : forall acc out,
  has_SampleID acc ->
  reduce_from (safe_join Left) acc rest = inr out ->
  stutter (sample_ids acc) (sample_ids out).
Proof.
  induction rest as [|t rest IH]; simpl; intros acc out Hacc H.
  - injection H as <-. apply stutter_refl.
  - key_step acc' Hacc' Hids.
    apply stutter_trans with (b := sample_ids acc'); [|now apply IH].
    rewrite Hids. apply (gather_left_idx (sample_ids t) (sample_ids acc) []).
Qed.

Lemma reduce_inner_keys rest : forall acc out,
  has_SampleID acc ->
  reduce_from (safe_join Inner) acc rest = inr out ->
  forall v,
    In (Some v) (sample_ids out)
    <-> In (Some v) (sample_ids acc)
        /\ Forall (fun df => In (Some v) (sample_ids df)) rest.
Proof.
  induction rest as [|t rest IH]; simpl; intros acc out Hacc H v.
  - injection H as <-. split; [auto | tauto].
  - key_step acc' Hacc' Hids.
    rewrite (IH _ _ Hacc' H v), Hids. simpl join_idx.
    rewrite (gather_inner_idx (sample_ids t) (Some v) (sample_ids acc) []).
    rewrite matches_nonempty, Forall_cons_iff. split.
    + intros [[H1 (w & E & H2)] H3]. injection E as <-. tauto.
    + intros [H1 [H2 H3]]. repeat split; auto. now exists v.
Qed.

Lemma gather_unmatched vals lkeys rkeys : forall j c,
  In c (gather vals (map fst (unmatched_idx j lkeys rkeys))) -> c = None.
Proof.
  induction rkeys as [|k ks IH]; simpl; intros j c H; [tauto|].
  destruct (matches k lkeys); simpl in H.
  - destruct H as [<- | H]; [reflexivity | eauto].
  - eauto.
Qed.

(** Under [full], the rows that only the right table has come out with a
    null key: the values of the key column stay those of the first table. *)
Lemma reduce_full_keys rest : forall acc out,
  has_SampleID acc ->
  reduce_from (safe_join Full) acc rest = inr out ->
  forall v, In (Some v) (sample_ids out) <-> In (Some v) (sample_ids acc).
Proof.
  induction rest as [|t rest IH]; simpl; intros acc out Hacc H v.
  - injection H as <-. tauto.
  - key_step acc' Hacc' Hids.
    rewrite (IH _ _ Hacc' H v), Hids. simpl join_idx.
    rewrite map_app, gather_app, in_app_iff.
    rewrite (stutter_In _ _
               (gather_left_idx (sample_ids t) (sample_ids acc) [])).
    split; [|tauto]. intros [H1 | H1]; [assumption|].
    apply gather_unmatched in H1. discriminate.
Qed.

(** ** Rows of the merged table *)

(** C3. Under [inner], whenever the merge completes, a value is in the
    [SampleID] column of the written table exactly when it is in the
    [SampleID] column of every input table.  (A null cell is not a
    value.) *)
Theorem merge_inner_intersection fs files output dfs evs :
  reads fs files dfs ->
  Forall has_SampleID dfs ->
  merge_tsv fs files output Inner = (evs, inr tt) ->
  exists out,
    evs = map EvRead files ++ [EvWrite output out] /\
    forall v,
      In (Some v) (sample_ids out)
      <-> Forall (fun df => In (Some v) (sample_ids df)) dfs.
Proof.
  intros Hr Hv Hrun.
  destruct dfs as [|first rest]; [inversion Hr; subst; discriminate|].
  rewrite (merge_tsv_run _ _ _ _ _ _ Hr Hv) in Hrun.
  destruct (reduce_from (safe_join Inner) first rest) as [e|out] eqn:Hred;
    [discriminate|].
  exists out. split; [congruence|]. intros v.
  rewrite Forall_cons_iff.
  apply (reduce_inner_keys rest first out); [now inversion Hv | exact Hred].
Qed.

Lemma merge_inner_intersection_witness :
  exists out,
    fst (merge_tsv Examples.AB ["A.tsv"; "D.tsv"; "B.tsv"] "out.tsv" Inner)
    = map EvRead ["A.tsv"; "D.tsv"; "B.tsv"] ++ [EvWrite "out.tsv" out] /\
    forall v,
      In (Some v) (sample_ids out)
      <-> Forall (fun df => In (Some v) (sample_ids df))
            [Examples.A; Examples.D; Examples.B].
Proof.
  apply (merge_inner_intersection Examples.AB
           ["A.tsv"; "D.tsv"; "B.tsv"] "out.tsv"
           [Examples.A; Examples.D; Examples.B]).
  - repeat constructor.
  - concrete_tables.
  - reflexivity.
Defined.

(** C6. Under [left], whenever the merge completes, the [SampleID]
    column of the written table lists the cells of the first table's
    [SampleID] column in their order, each one or more times; so the two
    columns hold the same set of cells. *)
Theorem merge_left_first_table fs files output first rest evs :
  reads fs files (first :: rest) ->
  Forall has_SampleID (first :: rest) ->
  merge_tsv fs files output Left = (evs, inr tt) ->
  exists out,
    evs = map EvRead files ++ [EvWrite output out] /\
    stutter (sample_ids first) (sample_ids out) /\
    forall k, In k (sample_ids out) <-> In k (sample_ids first).
Proof.
  intros Hr Hv Hrun.
  rewrite (merge_tsv_run _ _ _ _ _ _ Hr Hv) in Hrun.
  destruct (reduce_from (safe_join Left) first rest) as [e|out] eqn:Hred;
    [discriminate|].
  assert (Hs : stutter (sample_ids first) (sample_ids out))
    by (apply (reduce_left_keys rest); [now inversion Hv | exact Hred]).
  exists out. split; [congruence|]. split; [exact Hs|].
  exact (stutter_In _ _ Hs).
Qed.

Lemma merge_left_first_table_witness :
  exists out,
    fst (merge_tsv Examples.AB ["A.tsv"; "D.tsv"; "B.tsv"] "out.tsv" Left)
    = map EvRead ["A.tsv"; "D.tsv"; "B.tsv"] ++ [EvWrite "out.tsv" out] /\
    stutter (sample_ids Examples.A) (sample_ids out) /\
    forall k, In k (sample_ids out) <-> In k (sample_ids Examples.A).
Proof.
  apply (merge_left_first_table Examples.AB
           ["A.tsv"; "D.tsv"; "B.tsv"] "out.tsv" Examples.A
           [Examples.D; Examples.B]).
  - repeat constructor.
  - concrete_tables.
  - reflexivity.
Defined.

(** C8. A left merge depends on the order of the files: for the tables
    [A] and [B] of the end-to-end example, merging [[A; B]] keeps the
    keys of [A] and merging [[B; A]] keeps those of [B], so key [1] is
    in the first result and not in the second. *)
Theorem left_merge_not_commutative :
  exists fs a b ta tb ab ba,
    fs a = inr ta /\ fs b = inr tb /\ has_SampleID ta /\ has_SampleID tb /\
    merge_tsv fs [a; b] "out.tsv" Left
    = ([EvRead a; EvRead b; EvWrite "out.tsv" ab], inr tt) /\
    merge_tsv fs [b; a] "out.tsv" Left
    = ([EvRead b; EvRead a; EvWrite "out.tsv" ba], inr tt) /\
    In (Some "1") (sample_ids ab) /\ ~ In (Some "1") (sample_ids ba) /\
    ab <> ba.
Proof.
  exists Examples.AB, "A.tsv", "B.tsv", Examples.A, Examples.B.
  eexists. eexists.
  split; [reflexivity|]. split; [reflexivity|].
  split; [unfold has_SampleID; simpl; auto|].
  split; [unfold has_SampleID; simpl; auto|].
  split; [vm_compute; reflexivity|]. split; [vm_compute; reflexivity|].
  split; [vm_compute; auto|]. split.
  - vm_compute. intuition discriminate.
  - discriminate.
Qed.

(** C1. The code at the end-to-end example, under [full]: the row that
    only [B] has (key [3]) is written with a null [SampleID], because the
    join keeps the right keys in [SampleID_right] and that column is
    dropped.  Key [3] is in [B] and not in the output. *)
Theorem full_merge_loses_right_only_keys :
  merge_tsv Examples.AB ["A.tsv"; "B.tsv"] "out.tsv" Full
  = ([EvRead "A.tsv"; EvRead "B.tsv"; EvWrite "out.tsv" Examples.AB_full],
     inr tt)
  /\ sample_ids Examples.B = [Some "2"; Some "3"]
  /\ sample_ids Examples.AB_full = [Some "1"; Some "2"; None]
  /\ In (Some "3") (sample_ids Examples.B)
  /\ ~ In (Some "3") (sample_ids Examples.AB_full).
Proof.
  split; [reflexivity|]. split; [reflexivity|]. split; [reflexivity|].
  split; [vm_compute; auto|]. vm_compute. intuition discriminate.
Qed.

(** ** Column names *)

Lemma length_append s t :
  String.length (String.append s t) = String.length s + String.length t.
Proof. induction s as [|a s IH]; simpl; [reflexivity | now rewrite IH]. Qed.

Lemma append_inj_l t : forall s1 s2,
  String.append s1 t = String.append s2 t -> s1 = s2.
Proof.
  induction s1 as [|a s1 IH]; intros [|b s2] H; simpl in H.
  - reflexivity.
  - apply (f_equal String.length) in H. simpl in H.
    rewrite length_append in H. lia.
  - apply (f_equal String.length) in H. simpl in H.
    rewrite length_append in H. lia.
  - injection H as -> H. f_equal. now apply IH.
Qed.

Lemma suffixed_SampleID_right c :
  String.append c suffix = "SampleID_right" -> c = "SampleID".
Proof. intros H. now apply (append_inj_l suffix c "SampleID"). Qed.

Lemma suffixed_not_SampleID c : String.append c suffix <> "SampleID".
Proof.
  intros H. assert (Hlen := f_equal String.length H).
  rewrite length_append in Hlen. simpl in Hlen.
  destruct c as [|a [|b [|d c]]]; simpl in Hlen; try lia.
  simpl in H. injection H as _ _ H. discriminate H.
Qed.

Lemma right_name_cases names c :
  right_name names c = c \/ right_name names c = String.append c suffix.
Proof. unfold right_name. destruct (contains c names); auto. Qed.

Lemma join_columns left right on how joined :
  join left right on how = inr joined ->
  columns joined
  = match how with
    | Inner | Left =>
        columns left ++ map (right_name (columns left)) (columns (drop right on))
    | Full =>
        columns left ++ map (right_name (columns left)) (columns right)
    | Right =>
        columns (drop left on)
          ++ map (right_name (columns (drop left on))) (columns right)
    end.
Proof.
  intros H. apply join_inr in H as (lk & rk & _ & _ & ->). cbv zeta.
  destruct how; rewrite columns_app, columns_map_same by reflexivity;
    f_equal; unfold columns; rewrite !map_map; reflexivity.
Qed.

Lemma join_unique left right on how joined :
  join left right on how = inr joined ->
  unique_columns left -> unique_columns joined.
Proof.
  unfold join, unique_columns. intros H Hl.
  destruct (get_column left on) as [lk|]; [|discriminate].
  destruct (get_column right on) as [rk|]; [|discriminate].
  destruct how; apply hstack_NoDup in H; auto;
    rewrite columns_map_same by reflexivity; auto.
  rewrite columns_drop. now apply NoDup_filter.
Qed.

(** The header of a completed join on [SampleID]: a part [L] taken from
    the left names, then the renamed part [R] of the right names; only
    the key can be missing from either part. *)
Lemma join_header left right how joined :
  join left right "SampleID" how = inr joined ->
  has_SampleID left -> has_SampleID right ->
  exists L R names,
    columns joined = L ++ map (right_name names) R /\
    incl L (columns left) /\ incl R (columns right) /\
    (forall c, In c (columns left) -> c <> "SampleID" -> In c L) /\
    (forall c, In c (columns right) -> c <> "SampleID" -> In c R) /\
    In "SampleID" (columns joined).
Proof.
  intros H Hl Hr. apply join_columns in H.
  assert (Hdl : incl (columns (drop left "SampleID")) (columns left))
    by (intros c Hc; now apply In_columns_drop in Hc).
  assert (Hdr : incl (columns (drop right "SampleID")) (columns right))
    by (intros c Hc; now apply In_columns_drop in Hc).
  destruct how.
  - exists (columns left), (columns (drop right "SampleID")), (columns left).
    repeat split; auto using incl_refl.
    + intros c Hc Hn. now apply In_columns_drop.
    + rewrite H. apply in_or_app. now left.
  - exists (columns left), (columns right), (columns left).
    repeat split; auto using incl_refl.
    rewrite H. apply in_or_app. now left.
  - exists (columns left), (columns (drop right "SampleID")), (columns left).
    repeat split; auto using incl_refl.
    + intros c Hc Hn. now apply In_columns_drop.
    + rewrite H. apply in_or_app. now left.
  - exists (columns (drop left "SampleID")), (columns right),
      (columns (drop left "SampleID")).
    repeat split; auto using incl_refl.
    + intros c Hc Hn. now apply In_columns_drop.
    + rewrite H. apply in_or_app. right.
      apply in_map_iff. exists "SampleID". split; [|exact Hr].
      unfold right_name.
      destruct (contains "SampleID" (columns (drop left "SampleID"))) eqn:E;
        [|reflexivity].
      apply contains_In, In_columns_drop in E. tauto.
Qed.

(** What one step of the fold does to the header. *)
Lemma safe_join_header join_type left right out :
  safe_join join_type left right = inr out ->
  unique_columns left -> has_SampleID left -> has_SampleID right ->
  unique_columns out /\ has_SampleID out /\
  ~ In "SampleID_right" (columns out) /\
  (forall c, In c (columns left) -> c <> "SampleID" ->
             c <> "SampleID_right" -> In c (columns out)) /\
  (forall c, In c (columns right) -> c <> "SampleID" ->
             c <> "SampleID_right" ->
             In c (columns out) \/ In (String.append c suffix) (columns out)) /\
  (forall n, In n (columns out) -> n <> "SampleID" ->
             In n (columns left) \/
             exists c, In c (columns right) /\ c <> "SampleID" /\
                       (n = c \/ n = String.append c suffix)).
Proof.
  intros H Hu Hl Hr.
  apply safe_join_inr in H as (joined & Hj & ->).
  pose proof (join_unique _ _ _ _ _ Hj Hu) as Huj.
  apply join_header in Hj as (L & R & names & Hc & HL & HR & HcL & HcR & Hk);
    auto.
  assert (Hin : forall n, In n (columns (drop joined "SampleID_right"))
                  <-> (In n L \/ In n (map (right_name names) R))
                      /\ n <> "SampleID_right")
    by (intros n; now rewrite In_columns_drop, Hc, in_app_iff).
  repeat split.
  - unfold unique_columns. rewrite columns_drop. now apply NoDup_filter.
  - apply In_columns_drop. split; [assumption | discriminate].
  - intros Hn. apply In_columns_drop in Hn. tauto.
  - intros c Hcl Hn1 Hn2. apply Hin. auto.
  - intros c Hcr Hn1 Hn2.
    assert (HinR : In (right_name names c) (map (right_name names) R))
      by (apply in_map; auto).
    destruct (right_name_cases names c) as [E | E]; rewrite E in HinR.
    + left. apply Hin. auto.
    + right. apply Hin. split; [auto|].
      intros Hs. apply suffixed_SampleID_right in Hs. contradiction.
  - intros n Hn Hne. apply Hin in Hn as [[Hn | Hn] Hsr]; [left; auto|].
    right. apply in_map_iff in Hn as (c & E & HcR').
    exists c. split; [auto|]. split.
    + intros ->. destruct (right_name_cases names "SampleID") as [E' | E'];
        rewrite E' in E; subst n; [now apply Hne | now apply Hsr].
    + destruct (right_name_cases names c) as [E' | E']; rewrite E' in E; auto.
Qed.

(** The header through the fold: [seen] are the tables already merged
    into the accumulator. *)
Lemma reduce_header join_type rest : forall acc seen out,
  unique_columns acc -> has_SampleID acc -> Forall has_SampleID rest ->
  covers seen (columns acc) -> derived seen (columns acc) ->
  reduce_from (safe_join join_type) acc rest = inr out ->
  unique_columns out /\ has_SampleID out /\
  covers (seen ++ rest) (columns out) /\ derived (seen ++ rest) (columns out).
Proof.
  induction rest as [|t rest IH]; simpl; intros acc seen out Hu Hk Hv Hc Hd H.
  - injection H as <-. rewrite app_nil_r. auto.
  - destruct (safe_join join_type acc t) as [e|acc'] eqn:Hstep; [discriminate|].
    inversion Hv as [|? ? Ht Hrest]; subst.
    apply safe_join_header in Hstep
      as (Hu' & Hk' & _ & Hleft & Hright & Hfrom); auto.
    replace (seen ++ t :: rest) with ((seen ++ [t]) ++ rest)
      by now rewrite <- app_assoc.
    apply (IH acc'); auto.
    + intros df c Hdf Hcol Hn1 Hn2. apply in_app_iff in Hdf as [Hdf | [<- | []]].
      * destruct (Hc df c Hdf Hcol Hn1 Hn2) as [Hin | Hin].
        -- left. auto.
        -- right. apply Hleft; auto using suffixed_not_SampleID.
           intros Hs. now apply suffixed_SampleID_right in Hs.
      * auto.
    + intros n Hn Hne. destruct (Hfrom n Hn Hne) as [Hin | (c & Hcol & Hc1 & Hc2)].
      * destruct (Hd n Hin Hne) as (df & c & Hdf & Hrest').
        exists df, c. split; [apply in_or_app; now left | exact Hrest'].
      * exists t, c. split; [apply in_or_app; right; now left | auto].
Qed.

(** ** The [SampleID_right] column *)

(** C9. The result of a join step is the join without any column named
    [SampleID_right]: whether the join created the column or an input
    table brought it, the step's result has no column of that name. *)
Theorem safe_join_drops_SampleID_right join_type left right out :
  safe_join join_type left right = inr out ->
  exists joined,
    join left right "SampleID" join_type = inr joined /\
    out = drop joined "SampleID_right" /\
    ~ In "SampleID_right" (columns out).
Proof.
  intros H. apply safe_join_inr in H as (joined & Hj & ->).
  exists joined. repeat split; auto.
  intros Hn. apply In_columns_drop in Hn. tauto.
Qed.

Lemma safe_join_drops_SampleID_right_witness :
  In "SampleID_right" (columns Examples.G) /\
  exists joined,
    join Examples.A Examples.G "SampleID" Inner = inr joined /\
    [ mkSeries "SampleID" [Some "1"; Some "2"];
      mkSeries "X" [Some "10"; Some "20"];
      mkSeries "W" [Some "5"; Some "6"] ]
    = drop joined "SampleID_right" /\
    ~ In "SampleID_right"
        (columns [ mkSeries "SampleID" [Some "1"; Some "2"];
                   mkSeries "X" [Some "10"; Some "20"];
                   mkSeries "W" [Some "5"; Some "6"] ]).
Proof.
  split; [simpl; auto|].
  apply (safe_join_drops_SampleID_right Inner Examples.A Examples.G).
  reflexivity.
Defined.

(** The merged output of [A] and [G] has lost [G]'s column, and the run
    ends normally. *)
Example merge_tsv_genuine_SampleID_right :
  merge_tsv Examples.AB ["A.tsv"; "G.tsv"] "out.tsv" Left
  = ([EvRead "A.tsv"; EvRead "G.tsv";
      EvWrite "out.tsv"
        [ mkSeries "SampleID" [Some "1"; Some "2"];
          mkSeries "X" [Some "10"; Some "20"];
          mkSeries "W" [Some "5"; Some "6"] ]],
     inr tt).
Proof. reflexivity. Qed.

(** Under [full] the same input does not complete: the right key is
    renamed to [SampleID_right], which [G] already has. *)
Example merge_tsv_genuine_SampleID_right_full :
  merge_tsv Examples.AB ["A.tsv"; "G.tsv"] "out.tsv" Full
  = ([EvRead "A.tsv"; EvRead "G.tsv"],
     inl (Raised (JoinError (DuplicateError "SampleID_right")))).
Proof. reflexivity. Qed.

(** ** The header of the merged table *)

(** C4, as stated, fails: three tables that share the data column [X].
    The first join renames the second [X] to [X_right]; the second join
    needs that name again and raises, so nothing is written. *)
Lemma merge_tsv_shared_column_raises :
  reads Examples.AB ["A.tsv"; "A2.tsv"; "A3.tsv"]
    [Examples.A; Examples.A2; Examples.A3] /\
  Forall has_SampleID [Examples.A; Examples.A2; Examples.A3] /\
  Forall unique_columns [Examples.A; Examples.A2; Examples.A3] /\
  merge_tsv Examples.AB ["A.tsv"; "A2.tsv"; "A3.tsv"] "out.tsv" Full
  = (map EvRead ["A.tsv"; "A2.tsv"; "A3.tsv"],
     inl (Raised (JoinError (DuplicateError "X_right")))) /\
  written (fst (merge_tsv Examples.AB ["A.tsv"; "A2.tsv"; "A3.tsv"]
                  "out.tsv" Full)) = [].
Proof.
  split; [repeat constructor|].
  split; [concrete_tables|].
  split; [|split; reflexivity].
  repeat constructor; simpl; intuition discriminate.
Qed.

(** C4, amended. For tables with unique column names that all have a
    [SampleID] column, and for every join mode: whenever the merge
    completes, it writes exactly one table; its header has no repeated
    name and holds [SampleID] exactly once; every input column other than
    the key and one named [SampleID_right] is in the header under its
    name or with [_right] appended; and every other header name comes
    from an input column in one of these two ways. *)
Theorem merge_tsv_header fs files output join_type dfs evs :
  reads fs files dfs ->
  Forall unique_columns dfs ->
  Forall has_SampleID dfs ->
  merge_tsv fs files output join_type = (evs, inr tt) ->
  exists out,
    evs = map EvRead files ++ [EvWrite output out] /\
    written evs = [out] /\
    NoDup (columns out) /\
    count_occ string_dec (columns out) "SampleID" = 1 /\
    covers dfs (columns out) /\
    derived dfs (columns out).
Proof.
  intros Hr Hu Hv Hrun.
  destruct dfs as [|first rest]; [inversion Hr; subst; discriminate|].
  rewrite (merge_tsv_run _ _ _ _ _ _ Hr Hv) in Hrun.
  destruct (reduce_from (safe_join join_type) first rest) as [e|out] eqn:Hred;
    [discriminate|].
  injection Hrun as <-.
  inversion Hu as [|? ? Hu1 _]; inversion Hv as [|? ? Hv1 Hv2]; subst.
  apply (reduce_header join_type rest first [first]) in Hred
    as (Huo & Hko & Hco & Hdo); auto.
  - exists out. split; [reflexivity|]. split.
    + rewrite written_app, written_reads. reflexivity.
    + repeat split; auto. now apply NoDup_count_occ'.
  - intros df c [<- | []] Hc _ _. now left.
  - intros n Hn Hne'. exists first, n. simpl. auto.
Qed.

Lemma merge_tsv_header_witness :
  exists out,
    fst (merge_tsv Examples.AB ["A.tsv"; "A3.tsv"; "B.tsv"] "out.tsv" Right)
    = map EvRead ["A.tsv"; "A3.tsv"; "B.tsv"] ++ [EvWrite "out.tsv" out] /\
    written (fst (merge_tsv Examples.AB ["A.tsv"; "A3.tsv"; "B.tsv"]
                    "out.tsv" Right)) = [out] /\
    NoDup (columns out) /\
    count_occ string_dec (columns out) "SampleID" = 1 /\
    covers [Examples.A; Examples.A3; Examples.B] (columns out) /\
    derived [Examples.A; Examples.A3; Examples.B] (columns out).
Proof.
  apply (merge_tsv_header Examples.AB
           ["A.tsv"; "A3.tsv"; "B.tsv"] "out.tsv" Right
           [Examples.A; Examples.A3; Examples.B]).
  - repeat constructor.
  - repeat constructor; simpl; intuition discriminate.
  - concrete_tables.
  - reflexivity.
Defined.

(** * Further properties of the script *)

(** ** The ways a run can end *)

Lemma read_all_cases fs files :
  (exists dfs, reads fs files dfs) \/
  (exists pre f post dfs detail,
     files = pre ++ f :: post /\ reads fs pre dfs /\ fs f = inl detail).
Proof.
  induction files as [|g files IH].
  - left. exists []. constructor.
  - destruct (fs g) as [detail|df] eqn:Hg.
    + right. exists [], g, files, [], detail.
      split; [reflexivity | split; [apply Forall2_nil | exact Hg]].
    + destruct IH as [(dfs & Hr) | (pre & f & post & dfs & detail & -> & Hr & Hf)].
      * left. exists (df :: dfs). now constructor.
      * right. exists (g :: pre), f, post, (df :: dfs), detail.
        repeat split; auto. now constructor.
Qed.

Lemma has_SampleID_cases dfs :
  Forall has_SampleID dfs \/ Exists (fun df => ~ has_SampleID df) dfs.
Proof.
  induction dfs as [|df dfs [IH | IH]]; auto.
  destruct (contains "SampleID" (columns df)) eqn:E.
  - apply contains_In in E. left. now constructor.
  - apply contains_not_In in E. right. now left.
Qed.

(** Every run has one of five shapes. *)
Lemma merge_tsv_cases fs files output join_type :
  merge_tsv fs files output join_type
  = ([EvPrint "Error: No input files provided."], inl (SysExit 1))
  \/ (exists pre f post detail,
        files = pre ++ f :: post /\
        merge_tsv fs files output join_type
        = (map EvRead (pre ++ [f]), inl (Raised (ReadError detail))))
  \/ (exists f,
        In f files /\
        merge_tsv fs files output join_type
        = (map EvRead files, inl (Raised (ValueError (missing_message f)))))
  \/ (exists e,
        merge_tsv fs files output join_type
        = (map EvRead files, inl (Raised (JoinError e))))
  \/ (exists out,
        merge_tsv fs files output join_type
        = (map EvRead files ++ [EvWrite output out], inr tt)).
Proof.
  destruct files as [|f0 files0]; [now left | right].
  remember (f0 :: files0) as files eqn:Efiles.
  destruct (read_all_cases fs files)
    as [(dfs & Hr) | (pre & f & post & dfs & detail & -> & Hr & Hf)].
  - right. destruct (has_SampleID_cases dfs) as [Hv | Hex].
    + right. destruct dfs as [|first rest]; [subst; inversion Hr|].
      rewrite (merge_tsv_run _ _ _ _ _ _ Hr Hv).
      destruct (reduce_from (safe_join join_type) first rest) as [e|out].
      * left. now exists e.
      * right. now exists out.
    + left.
      destruct (split_first_missing _ Hex) as (good & df & rest & -> & Hg & Hd).
      destruct (Forall2_app_inv_r _ _ Hr) as (fgood & ftail & Hfg & Ht & E).
      inversion Ht as [|f df' frest rest' Hf Hrest]; subst ftail.
      exists f. rewrite E. split; [apply in_elt|].
      rewrite E in Hr.
      apply (merge_tsv_validation_run fs fgood f frest output join_type
               good df rest Hr (Forall2_length Hfg) Hg Hd).
  - left. exists pre, f, post, detail. split; [reflexivity|].
    now apply merge_tsv_read_error with (dfs := dfs).
Qed.


(** X2. [reduce] is never called on an empty list: no run ends in the
    [TypeError] that [functools.reduce] raises for one, because the
    empty [files] list exits first and every file read adds a table. *)
Theorem merge_tsv_never_TypeError fs files output join_type msg :
  snd (merge_tsv fs files output join_type) <> inl (Raised (TypeError msg)).
Proof.
  destruct (merge_tsv_cases fs files output join_type)
    as [H | [(pre & f & post & detail & _ & H) | [(f & _ & H) |
        [(e & H) | (out & H)]]]]; rewrite H; simpl; discriminate.
Qed.

(** ** More on the key column *)

Lemma safe_join_keys_exist join_type left right out :
  safe_join join_type left right = inr out ->
  has_SampleID left /\ has_SampleID right.
Proof.
  intros H. apply safe_join_inr in H as (joined & Hj & _).
  apply join_inr in Hj as (lk & rk & Hlk & Hrk & _).
  split; unfold has_SampleID; eauto using get_column_In.
Qed.

(** The fold over a list that ends in [t]: its last step joins [t]. *)
Lemma reduce_from_snoc {A E} (f : A -> A -> E + A) init t : forall acc out,
  reduce_from f acc (init ++ [t]) = inr out ->
  exists acc', reduce_from f acc init = inr acc' /\ f acc' t = inr out.
Proof.
  induction init as [|x init IH]; simpl; intros acc out H.
  - exists acc. split; [reflexivity|]. now destruct (f acc t).
  - destruct (f acc x) as [e|a]; [discriminate|]. now apply IH.
Qed.

Lemma right_name_is_key names c :
  ~ In "SampleID" names ->
  String.eqb (right_name names c) "SampleID" = String.eqb c "SampleID".
Proof.
  intros Hn. unfold right_name.
  destruct (contains c names) eqn:E; [|reflexivity].
  destruct (String.eqb c "SampleID") eqn:Ec.
  - apply String.eqb_eq in Ec. subst c. apply contains_In in E. contradiction.
  - apply String.eqb_neq, suffixed_not_SampleID.
Qed.

Lemma get_column_map_eqb (f : Series -> Series) df n :
  (forall s, String.eqb (name (f s)) n = String.eqb (name s) n) ->
  get_column (map f df) n = option_map f (get_column df n).
Proof.
  intros Hf. unfold get_column. induction df as [|x df IH]; simpl; [reflexivity|].
  rewrite Hf. destruct (String.eqb (name x) n); auto.
Qed.

(** For [right], the key column of the step's result is the right key
    column gathered at the right row indices. *)
Lemma safe_join_sample_ids_right left right out :
  safe_join Right left right = inr out ->
  sample_ids out
  = gather (sample_ids right)
      (map fst (left_idx 0 (sample_ids right) (sample_ids left))).
Proof.
  intros H. apply safe_join_inr in H as (joined & Hj & ->).
  apply join_inr in Hj as (lk & rk & Hlk & Hrk & ->). cbv zeta.
  rewrite sample_ids_drop. unfold sample_ids at 1.
  rewrite get_column_app_r.
  - rewrite get_column_map_eqb.
    + rewrite Hrk. simpl. unfold sample_ids. rewrite Hlk, Hrk.
      f_equal. rewrite !map_map. now apply map_ext.
    + intros s. simpl. apply right_name_is_key.
      intros Hin. apply In_columns_drop in Hin. tauto.
  - rewrite columns_map_same by reflexivity.
    intros Hin. apply In_columns_drop in Hin. tauto.
Qed.

Lemma safe_join_inner_no_null left right out :
  safe_join Inner left right = inr out -> ~ In None (sample_ids out).
Proof.
  intros H Hnone.
  destruct (safe_join_keys_exist _ _ _ _ H) as [Hl _].
  apply safe_join_sample_ids in H as [_ Hids]; [|discriminate|assumption].
  rewrite Hids in Hnone. simpl join_idx in Hnone.
  apply (gather_inner_idx (sample_ids right) None (sample_ids left) []) in Hnone
    as [_ Hm].
  apply matches_nonempty in Hm as (v & E & _). discriminate.
Qed.

(** ** The shape of the merged frame *)

Lemma uniform_rectangular n df :
  (forall s, In s df -> List.length (values s) = n) -> rectangular df.
Proof.
  intros H s Hs. rewrite (H s Hs).
  destruct df as [|s0 df]; [contradiction|]. simpl. symmetry.
  apply H. now left.
Qed.

Lemma gather_length vals ix : List.length (gather vals ix) = List.length ix.
Proof. apply length_map. Qed.

(** Every column of a join step's result has one cell per index pair. *)
Lemma safe_join_rectangular join_type left right out :
  safe_join join_type left right = inr out -> rectangular out.
Proof.
  intros H. apply safe_join_inr in H as (joined & Hj & ->).
  apply join_inr in Hj as (lk & rk & _ & _ & Hj). cbv zeta in Hj.
  apply (uniform_rectangular
           (List.length (join_idx join_type (values lk) (values rk)))).
  intros s Hs. apply filter_In in Hs as [Hs _]. subst joined.
  destruct join_type; apply in_app_iff in Hs as [Hs | Hs];
    apply in_map_iff in Hs as (s' & <- & _); simpl;
    now rewrite gather_length, length_map.
Qed.

(** X3. Under [full], whenever the merge completes, the values in the
    written [SampleID] column are those of the first table and no
    others: a key that only a later table has is not among them. *)
Theorem merge_full_first_table_values fs files output first rest evs :
  reads fs files (first :: rest) ->
  Forall has_SampleID (first :: rest) ->
  merge_tsv fs files output Full = (evs, inr tt) ->
  exists out,
    evs = map EvRead files ++ [EvWrite output out] /\
    forall v, In (Some v) (sample_ids out) <-> In (Some v) (sample_ids first).
Proof.
  intros Hr Hv Hrun.
  rewrite (merge_tsv_run _ _ _ _ _ _ Hr Hv) in Hrun.
  destruct (reduce_from (safe_join Full) first rest) as [e|out] eqn:Hred;
    [discriminate|].
  exists out. split; [congruence|].
  apply (reduce_full_keys rest); [now inversion Hv | exact Hred].
Qed.

Lemma merge_full_first_table_values_witness :
  exists out,
    fst (merge_tsv Examples.AB ["A.tsv"; "D.tsv"; "B.tsv"] "out.tsv" Full)
    = map EvRead ["A.tsv"; "D.tsv"; "B.tsv"] ++ [EvWrite "out.tsv" out] /\
    forall v,
      In (Some v) (sample_ids out) <-> In (Some v) (sample_ids Examples.A).
Proof.
  apply (merge_full_first_table_values Examples.AB
           ["A.tsv"; "D.tsv"; "B.tsv"] "out.tsv" Examples.A
           [Examples.D; Examples.B]).
  - repeat constructor.
  - concrete_tables.
  - reflexivity.
Defined.

(** X4. Under [right], whenever the merge completes, the written
    [SampleID] column lists the cells of the last table's [SampleID]
    column in their order, each one or more times. *)
Theorem merge_right_last_table fs files output first rest evs :
  reads fs files (first :: rest) ->
  Forall has_SampleID (first :: rest) ->
  merge_tsv fs files output Right = (evs, inr tt) ->
  exists out,
    evs = map EvRead files ++ [EvWrite output out] /\
    stutter (sample_ids (last rest first)) (sample_ids out) /\
    forall k, In k (sample_ids out) <-> In k (sample_ids (last rest first)).
Proof.
  intros Hr Hv Hrun.
  rewrite (merge_tsv_run _ _ _ _ _ _ Hr Hv) in Hrun.
  destruct (reduce_from (safe_join Right) first rest) as [e|out] eqn:Hred;
    [discriminate|].
  assert (Hs : stutter (sample_ids (last rest first)) (sample_ids out)).
  { destruct rest as [|t rest'] using rev_ind.
    - simpl in *. injection Hred as <-. apply stutter_refl.
    - rewrite last_last.
      apply reduce_from_snoc in Hred as (acc' & _ & Hstep).
      rewrite (safe_join_sample_ids_right _ _ _ Hstep).
      apply (gather_left_idx (sample_ids acc') (sample_ids t) []). }
  exists out. split; [congruence|]. split; [exact Hs|].
  exact (stutter_In _ _ Hs).
Qed.

Lemma merge_right_last_table_witness :
  exists out,
    fst (merge_tsv Examples.AB ["A.tsv"; "A3.tsv"; "B.tsv"] "out.tsv" Right)
    = map EvRead ["A.tsv"; "A3.tsv"; "B.tsv"] ++ [EvWrite "out.tsv" out] /\
    stutter (sample_ids (last [Examples.A3; Examples.B] Examples.A))
            (sample_ids out) /\
    forall k,
      In k (sample_ids out)
      <-> In k (sample_ids (last [Examples.A3; Examples.B] Examples.A)).
Proof.
  apply (merge_right_last_table Examples.AB
           ["A.tsv"; "A3.tsv"; "B.tsv"] "out.tsv" Examples.A
           [Examples.A3; Examples.B]).
  - repeat constructor.
  - concrete_tables.
  - reflexivity.
Defined.

(** X5. Under [inner] with two or more files, whenever the merge
    completes, no row of the written table has a null [SampleID]: rows
    with a null key never match and are left out. *)
Theorem merge_inner_no_null_key fs files output first second rest evs :
  reads fs files (first :: second :: rest) ->
  Forall has_SampleID (first :: second :: rest) ->
  merge_tsv fs files output Inner = (evs, inr tt) ->
  exists out,
    evs = map EvRead files ++ [EvWrite output out] /\
    ~ In None (sample_ids out).
Proof.
  intros Hr Hv Hrun.
  rewrite (merge_tsv_run _ _ _ _ _ _ Hr Hv) in Hrun.
  destruct (reduce_from (safe_join Inner) first (second :: rest))
    as [e|out] eqn:Hred; [discriminate|].
  exists out. split; [congruence|].
  destruct (@exists_last _ (second :: rest)) as (init & t & E); [discriminate|].
  rewrite E in Hred.
  apply reduce_from_snoc in Hred as (acc' & _ & Hstep).
  now apply safe_join_inner_no_null in Hstep.
Qed.

Lemma merge_inner_no_null_key_witness :
  exists out,
    fst (merge_tsv Examples.AB ["A.tsv"; "D.tsv"; "B.tsv"] "out.tsv" Inner)
    = map EvRead ["A.tsv"; "D.tsv"; "B.tsv"] ++ [EvWrite "out.tsv" out] /\
    ~ In None (sample_ids out).
Proof.
  apply (merge_inner_no_null_key Examples.AB
           ["A.tsv"; "D.tsv"; "B.tsv"] "out.tsv" Examples.A Examples.D
           [Examples.B]).
  - repeat constructor.
  - concrete_tables.
  - reflexivity.
Defined.

(** X6. Whenever the merge completes on tables whose columns all have
    the height of their table, the written table is of that kind too:
    every column has the same number of cells, in every join mode. *)
Theorem merge_tsv_rectangular fs files output join_type dfs evs :
  reads fs files dfs ->
  Forall has_SampleID dfs ->
  Forall rectangular dfs ->
  merge_tsv fs files output join_type = (evs, inr tt) ->
  exists out,
    evs = map EvRead files ++ [EvWrite output out] /\ rectangular out.
Proof.
  intros Hr Hv Hrect Hrun.
  destruct dfs as [|first rest]; [inversion Hr; subst; discriminate|].
  rewrite (merge_tsv_run _ _ _ _ _ _ Hr Hv) in Hrun.
  destruct (reduce_from (safe_join join_type) first rest) as [e|out] eqn:Hred;
    [discriminate|].
  exists out. split; [congruence|].
  destruct rest as [|t rest'] using rev_ind.
  - simpl in Hred. injection Hred as <-. now inversion Hrect.
  - apply reduce_from_snoc in Hred as (acc' & _ & Hstep).
    now apply safe_join_rectangular in Hstep.
Qed.

Lemma merge_tsv_rectangular_witness :
  exists out,
    fst (merge_tsv Examples.AB ["A.tsv"; "D.tsv"; "B.tsv"] "out.tsv" Full)
    = map EvRead ["A.tsv"; "D.tsv"; "B.tsv"] ++ [EvWrite "out.tsv" out] /\
    rectangular out.
Proof.
  apply (merge_tsv_rectangular Examples.AB
           ["A.tsv"; "D.tsv"; "B.tsv"] "out.tsv" Full
           [Examples.A; Examples.D; Examples.B]).
  - repeat constructor.
  - concrete_tables.
  - repeat constructor; intros s Hs; simpl in Hs;
      repeat (destruct Hs as [<- | Hs]; [reflexivity|]); contradiction.
  - reflexivity.
Defined.

(** ** Tables that share no column but the key *)



Lemma filter_no_SampleID_right cs :
  ~ In "SampleID_right" cs ->
  filter (fun c => negb (String.eqb c "SampleID_right")) cs = cs.
Proof.
  intros H. apply forallb_filter_id, forallb_forall. intros c Hc.
  apply negb_true_iff, String.eqb_neq. intros ->. contradiction.
Qed.









(** ** Order of the columns *)

Lemma safe_join_header_prefix join_type left right out :
  join_type <> Right ->
  no_SampleID_right left ->
  safe_join join_type left right = inr out ->
  exists tail, columns out = columns left ++ tail.
Proof.
  intros Hjt Hs H. apply safe_join_inr in H as (joined & Hj & ->).
  apply join_columns in Hj. rewrite columns_drop.
  destruct join_type; try congruence; rewrite Hj, filter_app,
    (filter_no_SampleID_right _ Hs); eauto.
Qed.

Lemma safe_join_no_SampleID_right join_type left right out :
  safe_join join_type left right = inr out -> no_SampleID_right out.
Proof.
  intros H. apply safe_join_inr in H as (joined & _ & ->).
  intros Hin. apply In_columns_drop in Hin. tauto.
Qed.

Lemma reduce_header_prefix join_type rest : forall acc out,
  join_type <> Right ->
  no_SampleID_right acc ->
  reduce_from (safe_join join_type) acc rest = inr out ->
  exists tail, columns out = columns acc ++ tail.
Proof.
  induction rest as [|t rest IH]; simpl; intros acc out Hjt Hs H.
  - injection H as <-. exists []. now rewrite app_nil_r.
  - destruct (safe_join join_type acc t) as [e|acc'] eqn:Hstep; [discriminate|].
    destruct (safe_join_header_prefix _ _ _ _ Hjt Hs Hstep) as (tail1 & E1).
    apply safe_join_no_SampleID_right in Hstep.
    destruct (IH _ _ Hjt Hstep H) as (tail2 & E2).
    exists (tail1 ++ tail2). now rewrite E2, E1, <- app_assoc.
Qed.

(** X8. Under [inner], [left] and [full], whenever the merge completes,
    the written header starts with the header of the first table, in
    its order (the first table having no column named [SampleID_right]);
    the columns of the later tables come after it. *)
Theorem merge_tsv_header_prefix fs files output join_type first rest evs :
  join_type <> Right ->
  reads fs files (first :: rest) ->
  Forall has_SampleID (first :: rest) ->
  no_SampleID_right first ->
  merge_tsv fs files output join_type = (evs, inr tt) ->
  exists out tail,
    evs = map EvRead files ++ [EvWrite output out] /\
    columns out = columns first ++ tail.
Proof.
  intros Hjt Hr Hv Hs Hrun.
  rewrite (merge_tsv_run _ _ _ _ _ _ Hr Hv) in Hrun.
  destruct (reduce_from (safe_join join_type) first rest) as [e|out] eqn:Hred;
    [discriminate|].
  destruct (reduce_header_prefix _ _ _ _ Hjt Hs Hred) as (tail & E).
  exists out, tail. split; [congruence | exact E].
Qed.

Lemma merge_tsv_header_prefix_witness :
  exists out tail,
    fst (merge_tsv Examples.AB ["A.tsv"; "A2.tsv"; "B.tsv"] "out.tsv" Full)
    = map EvRead ["A.tsv"; "A2.tsv"; "B.tsv"] ++ [EvWrite "out.tsv" out] /\
    columns out = columns Examples.A ++ tail.
Proof.
  apply (merge_tsv_header_prefix Examples.AB
           ["A.tsv"; "A2.tsv"; "B.tsv"] "out.tsv" Full Examples.A
           [Examples.A2; Examples.B]).
  - discriminate.
  - repeat constructor.
  - concrete_tables.
  - unfold no_SampleID_right. simpl. intuition discriminate.
  - reflexivity.
Defined.

(** ** A left merge against tables with distinct keys *)

Lemma key_values_cons c ks :
  key_values (c :: ks)
  = match c with Some v => v :: key_values ks | None => key_values ks end.
Proof. destruct c; reflexivity. Qed.

Lemma In_key_values v ks : In v (key_values ks) <-> In (Some v) ks.
Proof.
  unfold key_values. rewrite in_flat_map. split.
  - intros (c & Hc & Hv). destruct c as [w|]; simpl in Hv; [|contradiction].
    destruct Hv as [E | []]. now subst.
  - intros H. exists (Some v). simpl. auto.
Qed.

(** Among distinct keys, a key has at most one match. *)
Lemma matches_from_distinct ks : forall j k,
  NoDup (key_values ks) -> List.length (matches_from j k ks) <= 1.
Proof.
  induction ks as [|r rs IH]; intros j k Hnd; simpl; [lia|].
  rewrite key_values_cons in Hnd.
  destruct (keys_match k r) eqn:E.
  - apply keys_match_true in E as (v & -> & ->).
    inversion Hnd as [|? ? Hv Hnd']; subst.
    replace (matches_from (S j) (Some v) rs) with (@nil nat); [simpl; lia|].
    symmetry. apply matches_from_nil. intros r Hr.
    destruct (keys_match (Some v) r) eqn:Er; [|reflexivity].
    apply keys_match_true in Er as (w & Ew & ->). injection Ew as <-.
    apply In_key_values in Hr. contradiction.
  - apply IH. destruct r; [now inversion Hnd | assumption].
Qed.

Lemma left_idx_distinct rkeys lkeys : forall i,
  NoDup (key_values rkeys) ->
  map fst (left_idx i lkeys rkeys) = map Some (seq i (List.length lkeys)).
Proof.
  induction lkeys as [|k ks IH]; intros i Hnd; simpl; [reflexivity|].
  rewrite map_app, IH by assumption.
  pose proof (matches_from_distinct rkeys 0 k Hnd) as Hlen.
  unfold matches. destruct (matches_from 0 k rkeys) as [|j [|j' js]];
    simpl in *; try reflexivity; lia.
Qed.

Lemma gather_seq vals : forall pre,
  gather (pre ++ vals) (map Some (seq (List.length pre) (List.length vals)))
  = vals.
Proof.
  induction vals as [|v vals IH]; intros pre; simpl; [reflexivity|].
  rewrite nth_middle. f_equal.
  destruct (seen_snoc pre v vals) as [E1 E2]. rewrite E1, E2. apply IH.
Qed.

Lemma drop_no_SampleID_right df :
  no_SampleID_right df -> drop df "SampleID_right" = df.
Proof.
  intros H. unfold drop. apply forallb_filter_id, forallb_forall.
  intros s Hs. apply negb_true_iff, String.eqb_neq. intros E.
  apply H. rewrite <- E. now apply in_map.
Qed.

(** Joined against a table with distinct keys, a left table keeps its
    columns as they are; the step only appends columns. *)
Lemma safe_join_left_extends left right out :
  rectangular left -> no_SampleID_right left -> distinct_keys right ->
  safe_join Left left right = inr out ->
  exists tail, out = left ++ tail.
Proof.
  intros Hrect Hs Hd H. apply safe_join_inr in H as (joined & Hj & ->).
  apply join_inr in Hj as (lk & rk & Hlk & Hrk & ->). cbv zeta.
  simpl join_idx.
  assert (Hkeys : sample_ids right = values rk)
    by (unfold sample_ids; now rewrite Hrk).
  unfold distinct_keys in Hd. rewrite Hkeys in Hd.
  rewrite (left_idx_distinct _ _ 0 Hd).
  assert (Hlen : forall s, In s left ->
                   List.length (values s) = List.length (values lk)).
  { intros s Hin. rewrite (Hrect s Hin). symmetry. apply Hrect.
    unfold get_column in Hlk. now apply find_some in Hlk. }
  assert (Hsame : map (fun s => mkSeries (name s)
                     (gather (values s)
                        (map Some (seq 0 (List.length (values lk)))))) left
                  = left).
  { rewrite <- (map_id left) at 2. apply map_ext_in. intros s Hin.
    rewrite <- (Hlen s Hin).
    pose proof (gather_seq (values s) []) as G. simpl in G. rewrite G.
    now destruct s. }
  rewrite Hsame. unfold drop. rewrite filter_app.
  fold (drop left "SampleID_right"). rewrite (drop_no_SampleID_right _ Hs).
  eauto.
Qed.

Lemma reduce_left_extends rest : forall acc out,
  rectangular acc -> no_SampleID_right acc -> Forall distinct_keys rest ->
  reduce_from (safe_join Left) acc rest = inr out ->
  exists tail, out = acc ++ tail.
Proof.
  induction rest as [|t rest IH]; simpl; intros acc out Hrect Hs Hd H.
  - injection H as <-. exists []. now rewrite app_nil_r.
  - destruct (safe_join Left acc t) as [e|acc'] eqn:Hstep; [discriminate|].
    inversion Hd as [|? ? Hdt Hd']; subst.
    destruct (safe_join_left_extends _ _ _ Hrect Hs Hdt Hstep) as (tail1 & ->).
    destruct (IH _ out (safe_join_rectangular _ _ _ _ Hstep)
                (safe_join_no_SampleID_right _ _ _ _ Hstep) Hd' H)
      as (tail2 & ->).
    exists (tail1 ++ tail2). now rewrite <- app_assoc.
Qed.

(** X9. Under [left], when no later table repeats a [SampleID] value,
    the merge only adds columns: whenever it completes, the written
    table is the first table, every column with its cells unchanged,
    followed by the columns taken from the later tables.  (The first
    table is rectangular and has no column named [SampleID_right].) *)
Theorem merge_left_extends_first_table fs files output first rest evs :
  reads fs files (first :: rest) ->
  Forall has_SampleID (first :: rest) ->
  rectangular first ->
  no_SampleID_right first ->
  Forall distinct_keys rest ->
  merge_tsv fs files output Left = (evs, inr tt) ->
  exists tail,
    evs = map EvRead files ++ [EvWrite output (first ++ tail)].
Proof.
  intros Hr Hv Hrect Hs Hd Hrun.
  rewrite (merge_tsv_run _ _ _ _ _ _ Hr Hv) in Hrun.
  destruct (reduce_from (safe_join Left) first rest) as [e|out] eqn:Hred;
    [discriminate|].
  destruct (reduce_left_extends _ _ _ Hrect Hs Hd Hred) as (tail & ->).
  exists tail. congruence.
Qed.

Lemma merge_left_extends_first_table_witness :
  exists tail,
    fst (merge_tsv Examples.AB ["A.tsv"; "A2.tsv"; "B.tsv"] "out.tsv" Left)
    = map EvRead ["A.tsv"; "A2.tsv"; "B.tsv"]
        ++ [EvWrite "out.tsv" (Examples.A ++ tail)].
Proof.
  apply (merge_left_extends_first_table Examples.AB
           ["A.tsv"; "A2.tsv"; "B.tsv"] "out.tsv" Examples.A
           [Examples.A2; Examples.B]).
  - repeat constructor.
  - concrete_tables.
  - intros s Hs; simpl in Hs;
      repeat (destruct Hs as [<- | Hs]; [reflexivity|]); contradiction.
  - unfold no_SampleID_right. simpl. intuition discriminate.
  - repeat constructor; simpl; intuition discriminate.
  - reflexivity.
Defined.

(** ** A column name in three tables *)

Lemma hstack_inr_fresh cols : forall df out,
  hstack df cols = inr out ->
  forall c, In c (columns cols) -> ~ In c (columns df).
Proof.
  induction cols as [|s cols IH]; simpl; intros df out H c Hc; [contradiction|].
  destruct (contains (name s) (columns df)) eqn:E; [discriminate|].
  destruct Hc as [<- | Hc].
  - now apply contains_not_In.
  - intros Hin. apply (IH _ _ H c Hc). rewrite columns_app.
    apply in_or_app. now left.
Qed.

Lemma In_kept_names how left c :
  c <> "SampleID" -> (In c (kept_names how left) <-> In c (columns left)).
Proof.
  intros Hn. destruct how; simpl; try tauto.
  rewrite In_columns_drop. tauto.
Qed.

(** In a completed join, every right-hand column other than the key is
    in the result under its [right_name], and that name was free. *)
Lemma join_right_column left right how joined c :
  join left right "SampleID" how = inr joined ->
  In c (columns right) -> c <> "SampleID" ->
  In (right_name (kept_names how left) c) (columns joined) /\
  ~ In (right_name (kept_names how left) c) (kept_names how left).
Proof.
  intros H Hc Hn. split.
  - apply join_columns in H. rewrite H.
    destruct how; simpl; apply in_or_app; right; apply in_map;
      try assumption; now apply In_columns_drop.
  - unfold join in H.
    destruct (get_column left "SampleID") as [lk|]; [|discriminate].
    destruct (get_column right "SampleID") as [rk|]; [|discriminate].
    assert (Hd : In c (columns (drop right "SampleID")))
      by now apply In_columns_drop.
    destruct how; simpl kept_names;
      (eapply hstack_inr_fresh in H;
       [rewrite columns_map_same in H by reflexivity; exact H|]);
      unfold columns; rewrite map_map; simpl;
      apply in_map_iff.
    + unfold columns in Hd. apply in_map_iff in Hd as (s & <- & Hs). eauto.
    + unfold columns in Hc. apply in_map_iff in Hc as (s & <- & Hs). eauto.
    + unfold columns in Hd. apply in_map_iff in Hd as (s & <- & Hs). eauto.
    + unfold columns in Hc. apply in_map_iff in Hc as (s & <- & Hs). eauto.
Qed.

Lemma join_left_column left right how joined c :
  join left right "SampleID" how = inr joined ->
  In c (columns left) -> c <> "SampleID" -> In c (columns joined).
Proof.
  intros H Hc Hn. apply join_columns in H. rewrite H.
  destruct how; apply in_or_app; left; try assumption.
  now apply In_columns_drop.
Qed.

Section ColumnInThreeTables.

Variable c : string.
Hypothesis c_not_key : c <> "SampleID".
Hypothesis c_not_dropped : c <> "SampleID_right".

(** What a completed step does with the name [c]: it and its suffixed
    form stay once they are in the accumulator; a table that has [c]
    adds [c] when it is new and the suffixed form when [c] is taken, and
    cannot be joined when both are taken. *)
Lemma safe_join_column_count join_type acc t acc' :
  safe_join join_type acc t = inr acc' ->
  (In c (columns acc) -> In c (columns acc')) /\
  (In (String.append c suffix) (columns acc) ->
   In (String.append c suffix) (columns acc')) /\
  (has_column c t = true -> In c (columns acc')) /\
  (has_column c t = true -> In c (columns acc) ->
   In (String.append c suffix) (columns acc')) /\
  (has_column c t = true -> In c (columns acc) ->
   In (String.append c suffix) (columns acc) -> False).
Proof.
  intros H. apply safe_join_inr in H as (joined & Hj & ->).
  assert (Hcr1 : String.append c suffix <> "SampleID")
    by apply suffixed_not_SampleID.
  assert (Hcr2 : String.append c suffix <> "SampleID_right").
  { intros E. apply suffixed_SampleID_right in E. contradiction. }
  assert (Hname : In c (columns acc) ->
                  right_name (kept_names join_type acc) c
                  = String.append c suffix).
  { intros Hc. unfold right_name.
    apply (In_kept_names join_type) in Hc; [|assumption].
    apply contains_In in Hc. now rewrite Hc. }
  repeat split.
  - intros Hc. apply In_columns_drop. split; [|assumption].
    now apply (join_left_column _ _ _ _ _ Hj).
  - intros Hc. apply In_columns_drop. split; [|assumption].
    now apply (join_left_column _ _ _ _ _ Hj).
  - intros Ht. apply contains_In in Ht.
    apply In_columns_drop. split; [|assumption].
    destruct (contains c (columns acc)) eqn:E.
    + apply contains_In in E. now apply (join_left_column _ _ _ _ _ Hj).
    + destruct (join_right_column _ _ _ _ c Hj Ht c_not_key) as [Hin _].
      unfold right_name in Hin.
      destruct (contains c (kept_names join_type acc)) eqn:E'; [|exact Hin].
      apply contains_In, In_kept_names in E'; [|assumption].
      apply contains_In in E'. congruence.
  - intros Ht Hc. apply contains_In in Ht.
    apply In_columns_drop. split; [|assumption].
    destruct (join_right_column _ _ _ _ c Hj Ht c_not_key) as [Hin _].
    now rewrite (Hname Hc) in Hin.
  - intros Ht Hc Hcr. apply contains_In in Ht.
    destruct (join_right_column _ _ _ _ c Hj Ht c_not_key) as [_ Hfree].
    rewrite (Hname Hc) in Hfree. apply Hfree.
    now apply In_kept_names.
Qed.

(** A fold that completes has met at most two tables with [c]; fewer
    when the accumulator already holds [c] or its suffixed form. *)
Lemma reduce_column_count join_type rest : forall acc out,
  reduce_from (safe_join join_type) acc rest = inr out ->
  (In c (columns acc) -> In (String.append c suffix) (columns acc) ->
   List.length (filter (has_column c) rest) = 0) /\
  (In c (columns acc) -> List.length (filter (has_column c) rest) <= 1) /\
  List.length (filter (has_column c) rest) <= 2.
Proof.
  induction rest as [|t rest IH]; simpl; intros acc out H.
  - repeat split; lia.
  - destruct (safe_join join_type acc t) as [e|acc'] eqn:Hstep; [discriminate|].
    destruct (safe_join_column_count _ _ _ _ Hstep)
      as (K1 & K2 & K3 & K4 & K5).
    destruct (IH _ _ H) as (I1 & I2 & I3).
    destruct (has_column c t) eqn:Et; simpl.
    + repeat split.
      * intros Hc Hcr. exfalso. auto.
      * intros Hc. rewrite I1; auto.
      * specialize (I2 (K3 eq_refl)). lia.
    + repeat split; auto.
Qed.

(** X10. A column name other than [SampleID] and [SampleID_right] can be
    in at most two of the input tables: when three or more tables have
    it, the merge never completes, in any join mode.  Every file is read
    and the run ends in the error of a join; nothing is written. *)
Theorem merge_tsv_column_in_three_tables fs files output join_type dfs :
  reads fs files dfs ->
  Forall has_SampleID dfs ->
  3 <= List.length (filter (has_column c) dfs) ->
  exists e,
    merge_tsv fs files output join_type
    = (map EvRead files, inl (Raised (JoinError e))).
Proof.
  intros Hr Hv Hcount.
  destruct dfs as [|first rest]; [simpl in Hcount; lia|].
  rewrite (merge_tsv_run _ _ _ _ _ _ Hr Hv).
  destruct (reduce_from (safe_join join_type) first rest) as [e|out] eqn:Hred.
  - now exists e.
  - exfalso. destruct (reduce_column_count _ _ _ _ Hred) as (_ & I2 & I3).
    simpl in Hcount.
    destruct (has_column c first) eqn:E; simpl in Hcount; [|lia].
    apply contains_In in E. specialize (I2 E). lia.
Qed.

End ColumnInThreeTables.

Lemma merge_tsv_column_in_three_tables_witness :
  exists e,
    merge_tsv Examples.AB ["A.tsv"; "B.tsv"; "A2.tsv"; "A3.tsv"] "out.tsv" Left
    = (map EvRead ["A.tsv"; "B.tsv"; "A2.tsv"; "A3.tsv"],
       inl (Raised (JoinError e))).
Proof.
  apply (merge_tsv_column_in_three_tables "X") with
    (dfs := [Examples.A; Examples.B; Examples.A2; Examples.A3]).
  - discriminate.
  - discriminate.
  - repeat constructor.
  - concrete_tables.
  - simpl. lia.
Defined.
